(** * Shallow embedding of [order_analysis.py] (Product Order Analysis Dashboard)

    The Streamlit script [main] reads a CSV, validates its columns,
    preprocesses the frame, applies the sidebar filters and computes the
    "Country Analysis" or "Product Analysis" metrics.  The widgets and charts
    are inputs and outputs of the functions below; the pandas operations are
    written out on lists of rows. *)

From Stdlib Require Import String Ascii ZArith QArith List Bool Lia.
From Stdlib Require Import Permutation Sorted.
From Stdlib Require OrdersEx.
Import ListNotations.

Local Open Scope Z_scope.

(** ** Data model *)

(** A row of the frame [pd.read_csv] returns.  An empty cell of the [ID] or
    [shipcountrycode] column is NaN, written [None]; [ID] is an integer
    order number.  [raw_orderdate] and [raw_quantity] are the cells the
    preprocessing converts, as text.  [raw_ref_total] is the text
    [astype(str)] gives for the cell as read (["nan"] for an empty cell,
    ["1.0"] for the cell 1 of a float column); it depends only on the cell
    and on the dtype [read_csv] chose, which dropping rows does not change.
    [raw_Vip] is the integer flag. *)
Record raw_row := mk_raw_row {
  raw_ID : option Z;
  raw_orderdate : string;
  raw_quantity : string;
  raw_shipcountrycode : option string;
  raw_ref_total : string;
  raw_Vip : Z
}.

(** The uploaded frame: its column names and its rows. *)
Record raw_table := mk_raw_table {
  columns : list string;
  raw_rows : list raw_row
}.

(** Timestamps are datetime64[ns] values, nanoseconds since 1970-01-01;
    calendar dates are days since 1970-01-01. *)
Definition day_ns : Z := 86400 * 1000000000.

(** [pd.to_datetime(d)] of a calendar date [d]: its midnight. *)
Definition ts_of_date (d : Z) : Z := d * day_ns.

(** [Timestamp.date()]: the calendar date holding a timestamp. *)
Definition date_of_ts (t : Z) : Z := t / day_ns.

(** A row of [data] after preprocessing.  [orderdate] is a datetime64 cell
    ([None] is [NaT]). *)
Record row := mk_row {
  ID : option Z;
  orderdate : option Z;
  quantity : Z;
  shipcountrycode : option string;
  ref_total : string;
  Vip : Z
}.

(** ** int64 arithmetic *)

Definition int64_min : Z := - 2 ^ 63.

Definition in_int64 (z : Z) : bool := Z.leb int64_min z && Z.ltb z (2 ^ 63).

(** Two's complement wrap-around of an integer into the int64 range. *)
Definition wrap64 (z : Z) : Z := (z + 2 ^ 63) mod 2 ^ 64 - 2 ^ 63.

(** ** Generic list helpers used by the pandas operations *)

Definition mem_str (x : string) (l : list string) : bool :=
  existsb (String.eqb x) l.

(** Equality of two cells of a text column, NaN included: [isin] and
    [unique] treat NaN as equal to NaN. *)
Definition opt_str_eqb (a b : option string) : bool :=
  match a, b with
  | Some x, Some y => String.eqb x y
  | None, None => true
  | _, _ => false
  end.

Definition mem_opt (x : option string) (l : list (option string)) : bool :=
  existsb (opt_str_eqb x) l.

(** The non-missing values of a column, in order: what [nunique()],
    [value_counts()] and [groupby] see (they drop NaN). *)
Definition present {A} (l : list (option A)) : list A :=
  flat_map (fun o => match o with Some x => [x] | None => [] end) l.

Fixpoint sumZ (l : list Z) : Z :=
  match l with
  | [] => 0
  | x :: r => x + sumZ r
  end.

(** [Series.unique()]: distinct values in order of first appearance.
    [seen] holds the values already emitted. *)
Fixpoint unique_from {A} (eqb : A -> A -> bool) (seen : list A) (l : list A)
  : list A :=
  match l with
  | [] => []
  | x :: r =>
      if existsb (eqb x) seen then unique_from eqb seen r
      else x :: unique_from eqb (seen ++ [x]) r
  end.

Definition unique {A} (eqb : A -> A -> bool) (l : list A) : list A :=
  unique_from eqb [] l.

(** Stable insertion sort: [insert le x l] puts [x] before the first [y]
    with [le x y]. *)
Fixpoint insert {A} (le : A -> A -> bool) (x : A) (l : list A) : list A :=
  match l with
  | [] => [x]
  | y :: r => if le x y then x :: y :: r else y :: insert le x r
  end.

Fixpoint isort {A} (le : A -> A -> bool) (l : list A) : list A :=
  match l with
  | [] => []
  | x :: r => insert le x (isort le r)
  end.

(** Python's [<=] on strings (code-point order). *)
Definition str_leb (a b : string) : bool :=
  match String.compare a b with Gt => false | _ => true end.

(** [DataFrame.groupby(key)[col].apply(list)]: one group per key, keys
    sorted ascending ([sort=True]), values in row order.  The pairs given
    are the rows whose key is not NaN. *)
Fixpoint group_push {K V} (eqb : K -> K -> bool) (k : K) (v : V)
  (acc : list (K * list V)) : list (K * list V) :=
  match acc with
  | [] => [(k, [v])]
  | (k', vs) :: r =>
      if eqb k k' then (k', vs ++ [v]) :: r else (k', vs) :: group_push eqb k v r
  end.

Definition group_fold {K V} (eqb : K -> K -> bool) (kvs : list (K * V))
  (acc : list (K * list V)) : list (K * list V) :=
  fold_left (fun a kv => group_push eqb (fst kv) (snd kv) a) kvs acc.

Definition groupby_list {K V} (eqb le : K -> K -> bool) (kvs : list (K * V))
  : list (K * list V) :=
  isort (fun a b => le (fst a) (fst b)) (group_fold eqb kvs []).

(** [groupby(key)[col].sum()] on an int64 column: each sum wraps around. *)
Definition groupby_sum {K} (eqb le : K -> K -> bool) (kvs : list (K * Z))
  : list (K * Z) :=
  map (fun g => (fst g, wrap64 (sumZ (snd g)))) (groupby_list eqb le kvs).

(** [Series.sort_values(ascending=False)] on the value column.  Only the
    order of the values is modelled: pandas' default sort is not stable, so
    the order of equal values here (a stable sort) is not the script's. *)
Definition sort_desc {K} (l : list (K * Z)) : list (K * Z) :=
  isort (fun a b => Z.leb (snd b) (snd a)) l.

Definition sort_desc_nat {K} (l : list (K * nat)) : list (K * nat) :=
  isort (fun a b => Nat.leb (snd b) (snd a)) l.

(** [Series.mean()] of int64 values, as the exact quotient of their sum by
    their number; pandas returns it as a float64, computed by summing in
    float64, so the script shows this value rounded (exactly rounded when
    the sums stay below 2^53 in magnitude).  The mean of an empty series is
    [NaN] ([None]). *)
Definition mean (l : list Z) : option Q :=
  match l with
  | [] => None
  | _ => Some (inject_Z (sumZ l) / inject_Z (Z.of_nat (length l)))%Q
  end.

(** Applies a fallible function to every element; [None] if one fails. *)
Fixpoint traverse_option {A B} (f : A -> option B) (l : list A) : option (list B) :=
  match l with
  | [] => Some []
  | x :: r =>
      match f x, traverse_option f r with
      | Some y, Some ys => Some (y :: ys)
      | _, _ => None
      end
  end.

(** ** Column validation (lines 32-47) *)

Local Open Scope string_scope.

Definition expected_columns : list string :=
  ["ID"; "orderdate"; "quantity"; "shipcountrycode"; "ref_total"; "Vip"].

Definition all_columns_present (cols : list string) : bool :=
  forallb (fun c => mem_str c cols) expected_columns.

Definition missing_columns (cols : list string) : list string :=
  filter (fun c => negb (mem_str c cols)) expected_columns.

(** [', '.join(l)] *)
Fixpoint join (sep : string) (l : list string) : string :=
  match l with
  | [] => ""
  | [x] => x
  | x :: r => x ++ sep ++ join sep r
  end.

Definition schema_error_message (cols : list string) : string :=
  "The uploaded CSV file does not have the expected columns. Missing columns: "
  ++ join ", " (missing_columns cols).

(** ** Preprocessing (lines 50-57) *)

(** A value of the column [pd.to_numeric(_, errors="coerce")] returns: an
    integer of an int64 or uint64 column, a finite float64 of a float
    column, or an infinite float64 ([neg] for -inf); NaN is [None]. *)
Inductive number :=
  | IntV (z : Z)
  | FloatV (q : Q)
  | FloatInf (neg : bool).

(** [.fillna(0)]: NaN only occurs in a float column, where it becomes 0.0. *)
Definition fillna0 (o : option number) : number :=
  match o with Some x => x | None => FloatV 0 end.

(** [.astype(int)], to int64, on one value: an int64 value is kept and a
    uint64 value is reinterpreted modulo 2^64; a finite float is truncated
    toward zero, and one whose truncation is outside the int64 range gives
    -2^63 (NumPy's float to int64 conversion on x86-64); an infinite float
    makes pandas raise [IntCastingNaNError] ([None]). *)
Definition astype_int (x : number) : option Z :=
  match x with
  | IntV z => Some (wrap64 z)
  | FloatV q =>
      let t := Z.quot (Qnum q) (Zpos (Qden q)) in
      Some (if in_int64 t then t else int64_min)
  | FloatInf _ => None
  end.

Section Preprocessing.
(** [pd.to_datetime(col, errors="coerce")] and [pd.to_numeric(col,
    errors="coerce")] convert a whole column: the date format, or the dtype,
    is chosen from all its cells.  [to_datetime col s] is the timestamp the
    cell [s] of the column [col] receives, [to_numeric col s] its number;
    [None] is [NaT] / [NaN]. *)
Variable to_datetime : list string -> string -> option Z.
Variable to_numeric : list string -> string -> option number.

(** [data["orderdate"] = pd.to_datetime(data["orderdate"], errors="coerce")] *)
Definition convert_dates (rs : list raw_row) : list (option Z * raw_row) :=
  let col := map raw_orderdate rs in
  map (fun r => (to_datetime col (raw_orderdate r), r)) rs.

(** [data.dropna(subset=["orderdate"])] *)
Definition dropna_orderdate (rs : list (option Z * raw_row))
  : list (option Z * raw_row) :=
  filter (fun p => match fst p with Some _ => true | None => false end) rs.

(** One row of lines 52-57: [quantity] through [to_numeric] on the column
    [col] of the rows kept, [fillna(0)] and [astype(int)]; [ref_total]
    through [astype(str)] (see [raw_row]). *)
Definition convert_row (col : list string) (p : option Z * raw_row) : option row :=
  let r := snd p in
  match astype_int (fillna0 (to_numeric col (raw_quantity r))) with
  | Some q =>
      Some {| ID := raw_ID r;
              orderdate := fst p;
              quantity := q;
              shipcountrycode := raw_shipcountrycode r;
              ref_total := raw_ref_total r;
              Vip := raw_Vip r |}
  | None => None
  end.

(** Lines 50-57; [None] when [astype(int)] raises. *)
Definition preprocess (rs : list raw_row) : option (list row) :=
  let ps := dropna_orderdate (convert_dates rs) in
  traverse_option (convert_row (map (fun p => raw_quantity (snd p)) ps)) ps.
End Preprocessing.

(** ** Filters (lines 59-93) *)

Inductive vip_choice := AllCustomers | VIP | NonVIP.

Inductive analysis_choice := ProductAnalysis | CountryAnalysis.

(** The sidebar state: customer type, the two calendar dates of the range
    ([st.date_input] returns dates), the country selection (the options are
    the values of the column, NaN included) and the product references. *)
Record criteria := mk_criteria {
  vip_filter : vip_choice;
  date_lo : Z;
  date_hi : Z;
  selected_countries : list (option string);
  selected_product_refs : list string
}.

(** Lines 77-80: a selection holding "All Countries" / "All Refs" is
    replaced by the distinct values of the column. *)
Definition expand_countries (data : list row) (sel : list (option string))
  : list (option string) :=
  if mem_opt (Some "All Countries") sel then unique opt_str_eqb (map shipcountrycode data)
  else sel.

Definition expand_refs (data : list row) (sel : list string) : list string :=
  if mem_str "All Refs" sel then unique String.eqb (map ref_total data) else sel.

(** [orderdate >= t] and [orderdate <= t]; [NaT] compares false. *)
Definition ts_ge (d : option Z) (t : Z) : bool :=
  match d with Some x => Z.leb t x | None => false end.

Definition ts_le (d : option Z) (t : Z) : bool :=
  match d with Some x => Z.leb x t | None => false end.

(** Lines 82-87: [pd.to_datetime] of the two dates gives their midnights. *)
Definition base_filter (data : list row) (c : criteria) : list row :=
  let sc := expand_countries data (selected_countries c) in
  let sr := expand_refs data (selected_product_refs c) in
  filter (fun r => ts_ge (orderdate r) (ts_of_date (date_lo c))
                   && ts_le (orderdate r) (ts_of_date (date_hi c))
                   && mem_opt (shipcountrycode r) sc && mem_str (ref_total r) sr)
         data.

(** Lines 90-93: [Vip == 1] / [Vip == 0]. *)
Definition vip_keep (v : vip_choice) (r : row) : bool :=
  match v with
  | AllCustomers => true
  | VIP => Z.eqb (Vip r) 1
  | NonVIP => Z.eqb (Vip r) 0
  end.

Definition filter_data (data : list row) (c : criteria) : list row :=
  filter (vip_keep (vip_filter c)) (base_filter data c).

(** ** Country Analysis (lines 105-135) *)

Definition count_str (c : string) (l : list string) : nat :=
  length (filter (String.eqb c) l).

(** [Series.value_counts()] on the non-missing values [l]: counts per
    distinct value, sorted descending (as for [sort_desc], the order of
    equal counts is not the script's). *)
Definition value_counts (l : list string) : list (string * nat) :=
  sort_desc_nat (map (fun c => (c, count_str c l)) (unique String.eqb l)).

Record country_report := mk_country_report {
  total_orders : nat;
  unique_countries : nat;
  top_three_countries : list (string * nat);
  orders_by_country : list (string * nat)
}.

Definition country_analysis (v : list row) : country_report :=
  {| total_orders := length (unique Z.eqb (present (map ID v)));
     unique_countries := length (unique String.eqb (present (map shipcountrycode v)));
     top_three_countries := firstn 3 (value_counts (present (map shipcountrycode v)));
     orders_by_country := value_counts (present (map shipcountrycode v)) |}.

(** ** Product Analysis (lines 137-179) *)

(** [filtered_data["quantity"].sum()] on an int64 column. *)
Definition total_quantity_sold (v : list row) : Z := wrap64 (sumZ (map quantity v)).

(** The rows with an order ID, as (ID, value) pairs: [groupby("ID")] drops
    the rows whose ID is NaN. *)
Definition by_ID {A} (f : row -> A) (v : list row) : list (Z * A) :=
  flat_map (fun r => match ID r with Some i => [(i, f r)] | None => [] end) v.

(** [filtered_data.groupby("ID")["quantity"].sum().mean()] *)
Definition average_order_size (v : list row) : option Q :=
  mean (map snd (groupby_sum Z.eqb Z.leb (by_ID quantity v))).

(** Lines 147-153. *)
Definition popular_products (v : list row) : list (string * Z) :=
  firstn 10 (sort_desc (groupby_sum String.eqb str_leb
                          (map (fun r => (ref_total r, quantity r)) v))).

(** [itertools.combinations(l, 2)] *)
Fixpoint combinations2 {A} (l : list A) : list (A * A) :=
  match l with
  | [] => []
  | x :: r => (map (fun y => (x, y)) r ++ combinations2 r)%list
  end.

(** A [Counter] of product pairs, as its items in insertion order. *)
Definition pair := (string * string)%type.

Definition pair_eqb (p q : pair) : bool :=
  String.eqb (fst p) (fst q) && String.eqb (snd p) (snd q).

Fixpoint counter_incr (k : pair) (c : list (pair * nat)) : list (pair * nat) :=
  match c with
  | [] => [(k, 1%nat)]
  | (k', n) :: r => if pair_eqb k k' then (k', S n) :: r else (k', n) :: counter_incr k r
  end.

(** [Counter.update(iterable)] *)
Definition counter_update (c : list (pair * nat)) (l : list pair) : list (pair * nat) :=
  fold_left (fun c k => counter_incr k c) l c.

(** [counter[k]] *)
Fixpoint counter_get (c : list (pair * nat)) (k : pair) : nat :=
  match c with
  | [] => 0%nat
  | (k', n) :: r => if pair_eqb k k' then n else counter_get r k
  end.

(** Line 168: [filtered_data.groupby("ID")["ref_total"].apply(list)]. *)
Definition order_groups (v : list row) : list (list string) :=
  map snd (groupby_list Z.eqb Z.leb (by_ID ref_total v)).

(** Lines 169-171. *)
Definition cooccurrences (v : list row) : list (pair * nat) :=
  fold_left (fun c g => counter_update c (combinations2 (isort str_leb g)))
            (order_groups v) [].

(** Lines 172-177: the items sorted by count, descending. *)
Definition cooccurrence_df (v : list row) : list (pair * nat) :=
  sort_desc_nat (cooccurrences v).

Record product_report := mk_product_report {
  total_quantity : Z;
  average_order : option Q;
  popular : list (string * Z);
  cooccurrence_table : list (pair * nat)
}.

Definition product_analysis (v : list row) : product_report :=
  {| total_quantity := total_quantity_sold v;
     average_order := average_order_size v;
     popular := popular_products v;
     cooccurrence_table := cooccurrence_df v |}.

(** ** The script *)

(** What the page ends with: the column error or the empty-filter warning
    (both followed by [st.stop()]), an exception that ends the script, or
    one of the two analyses. *)
Inductive outcome :=
  | SchemaError (msg : string)
  | Crash
  | EmptyResult
  | CountryReport (r : country_report)
  | ProductReport (r : product_report).

(** Lines 95-179, on the preprocessed [data]. *)
Definition analyze (data : list row) (c : criteria) (opt : analysis_choice) : outcome :=
  match filter_data data c with
  | [] => EmptyResult
  | v =>
      match opt with
      | CountryAnalysis => CountryReport (country_analysis v)
      | ProductAnalysis => ProductReport (product_analysis v)
      end
  end.

(** [main].  [astype(int)] raising at line 54 ends the script; so does an
    empty [data]: the default range of [st.date_input] (lines 64-66) is
    then [NaT, NaT], which the widget rejects.  Otherwise [ui] is the
    sidebar, whose options and defaults depend on [data]. *)
Definition main (to_datetime : list string -> string -> option Z)
  (to_numeric : list string -> string -> option number)
  (t : raw_table) (ui : list row -> criteria) (opt : analysis_choice) : outcome :=
  if all_columns_present (columns t) then
    match preprocess to_datetime to_numeric (raw_rows t) with
    | None => Crash
    | Some [] => Crash
    | Some data => analyze data (ui data) opt
    end
  else SchemaError (schema_error_message (columns t)).

(** The sidebar defaults: all customers, the dates of
    [data["orderdate"].min()] and [.max()], "All Countries", "All Refs".
    [main] only builds the sidebar for a non-empty [data], whose rows all
    carry a date, so the [None] cases are not reached from [main]. *)
Fixpoint date_bound (f : Z -> Z -> Z) (l : list row) : option Z :=
  match l with
  | [] => None
  | r :: rest =>
      match orderdate r, date_bound f rest with
      | Some d, Some m => Some (f d m)
      | Some d, None => Some d
      | None, m => m
      end
  end.

Definition no_filters (data : list row) : criteria :=
  {| vip_filter := AllCustomers;
     date_lo := match date_bound Z.min data with Some t => date_of_ts t | None => 0 end;
     date_hi := match date_bound Z.max data with Some t => date_of_ts t | None => 0 end;
     selected_countries := [Some "All Countries"];
     selected_product_refs := ["All Refs"] |}.

(** ** Concrete column parsers

    Instances of [to_numeric] and [to_datetime] for the frames of the
    examples.  They follow pandas on columns whose quantity cells are
    optionally signed decimal integers below 2^53 in magnitude or text that
    is not a number, and whose date cells are ISO dates [YYYY-MM-DD] or
    text that is not a date; other cells (float literals, other date
    formats, larger integers) are outside what they model. *)

Definition digit (c : ascii) : option Z :=
  let n := nat_of_ascii c in
  if Nat.leb 48 n && Nat.leb n 57 then Some (Z.of_nat n - 48) else None.

Fixpoint digits_acc (acc : Z) (s : string) : option Z :=
  match s with
  | EmptyString => Some acc
  | String c r =>
      match digit c with
      | Some d => digits_acc (10 * acc + d) r
      | None => None
      end
  end.

Definition parse_digits (s : string) : option Z :=
  match s with EmptyString => None | _ => digits_acc 0 s end.

Definition parse_int (s : string) : option Z :=
  match s with
  | String "-"%char r => option_map Z.opp (parse_digits r)
  | _ => parse_digits s
  end.

(** The column is int64 when every cell is an integer, float64 otherwise
    (the non-numbers becoming NaN); below 2^53 the floats are exact. *)
Definition to_numeric_int (col : list string) (s : string) : option number :=
  match parse_int s with
  | Some z =>
      if forallb (fun c => match parse_int c with Some _ => true | None => false end) col
      then Some (IntV z) else Some (FloatV (inject_Z z))
  | None => None
  end.

Definition leap (y : Z) : bool :=
  (Z.eqb (y mod 4) 0 && negb (Z.eqb (y mod 100) 0)) || Z.eqb (y mod 400) 0.

Definition days_in_month (y m : Z) : Z :=
  if Z.eqb m 2 then (if leap y then 29 else 28)
  else if existsb (Z.eqb m) [4; 6; 9; 11] then 30 else 31.

(** Days from 1970-01-01 to the date [y-m-d] of the proleptic Gregorian
    calendar. *)
Definition days_from_civil (y m d : Z) : Z :=
  let y' := if Z.leb m 2 then y - 1 else y in
  let era := y' / 400 in
  let yoe := y' - era * 400 in
  let mp := if Z.ltb 2 m then m - 3 else m + 9 in
  let doy := (153 * mp + 2) / 5 + d - 1 in
  let doe := yoe * 365 + yoe / 4 - yoe / 100 + doy in
  era * 146097 + doe - 719468.

(** The timestamp of midnight starting the day [y-m-d]. *)
Definition midnight (y m d : Z) : Z := ts_of_date (days_from_civil y m d).

Definition to_datetime_iso (col : list string) (s : string) : option Z :=
  match s with
  | String y1 (String y2 (String y3 (String y4 (String "-"%char
      (String m1 (String m2 (String "-"%char (String d1 (String d2 EmptyString))))))))) =>
      match parse_digits (String y1 (String y2 (String y3 (String y4 EmptyString)))),
            parse_digits (String m1 (String m2 EmptyString)),
            parse_digits (String d1 (String d2 EmptyString)) with
      | Some y, Some m, Some d =>
          if Z.leb 1 m && Z.leb m 12 && Z.leb 1 d && Z.leb d (days_in_month y m)
          then Some (midnight y m d) else None
      | _, _, _ => None
      end
  | _ => None
  end.

(** The three-row frame of the spec's end-to-end example. *)
Definition example_table : raw_table :=
  {| columns := expected_columns;
     raw_rows :=
       [ mk_raw_row (Some 1) "2024-01-01" "2" (Some "US") "A" 1;
         mk_raw_row (Some 1) "2024-01-01" "1" (Some "US") "B" 1;
         mk_raw_row (Some 2) "2024-01-02" "4" (Some "FR") "A" 0 ] |}.

Definition run_example (opt : analysis_choice) : outcome :=
  main to_datetime_iso to_numeric_int example_table no_filters opt.

(** ** Statements of the specification compared with the code *)

(** [ID r == i], false for a NaN ID. *)
Definition id_is (i : Z) (r : row) : bool :=
  match ID r with Some j => Z.eqb j i | None => false end.



(** The spec's ordering of the co-occurrence table: count descending, equal
    counts by the canonical (lexicographic) order of the pairs. *)
Definition pair_leb (p q : pair) : bool :=
  match String.compare (fst p) (fst q) with
  | Lt => true
  | Gt => false
  | Eq => str_leb (snd p) (snd q)
  end.

Definition spec_cooc_order (a b : pair * nat) : Prop :=
  (snd b < snd a)%nat \/ (snd a = snd b /\ pair_leb (fst a) (fst b) = true).

(** Record updates of the sidebar selections. *)
Definition with_countries (c : criteria) (l : list (option string)) : criteria :=
  {| vip_filter := vip_filter c; date_lo := date_lo c; date_hi := date_hi c;
     selected_countries := l; selected_product_refs := selected_product_refs c |}.

Definition with_refs (c : criteria) (l : list string) : criteria :=
  {| vip_filter := vip_filter c; date_lo := date_lo c; date_hi := date_hi c;
     selected_countries := selected_countries c; selected_product_refs := l |}.

Definition with_vip (c : criteria) (v : vip_choice) : criteria :=
  {| vip_filter := v; date_lo := date_lo c; date_hi := date_hi c;
     selected_countries := selected_countries c;
     selected_product_refs := selected_product_refs c |}.

(** The values collected for key [k] by the [groupby] accumulator. *)
Fixpoint lookup_vals {K V} (eqb : K -> K -> bool) (acc : list (K * list V)) (k : K)
  : list V :=
  match acc with
  | [] => []
  | (k', vs) :: r => if eqb k k' then vs else lookup_vals eqb r k
  end.

(** The total number of pair increments held by a [Counter]. *)
Definition counter_total (c : list (pair * nat)) : nat := list_sum (map snd c).

(** ** Concrete frames used by the examples *)


Definition example_data : list row :=
  match preprocess to_datetime_iso to_numeric_int (raw_rows example_table) with
  | Some data => data
  | None => []
  end.


Definition missing_vip_table : raw_table :=
  {| columns := ["ID"; "orderdate"; "quantity"; "shipcountrycode"; "ref_total"];
     raw_rows := [] |}.

(** One order with two rows of the same reference. *)
Definition duplicate_ref_view : list row :=
  [ mk_row (Some 1) (Some (midnight 2024 1 1)) 1 (Some "US") "A" 1;
    mk_row (Some 1) (Some (midnight 2024 1 1)) 2 (Some "US") "A" 1 ].

(** Order 1 holds B and C, order 2 holds A and B. *)
Definition tied_pairs_view : list row :=
  [ mk_row (Some 1) (Some (midnight 2024 1 1)) 1 (Some "US") "B" 1;
    mk_row (Some 1) (Some (midnight 2024 1 1)) 1 (Some "US") "C" 1;
    mk_row (Some 2) (Some (midnight 2024 1 2)) 1 (Some "FR") "A" 0;
    mk_row (Some 2) (Some (midnight 2024 1 2)) 1 (Some "FR") "B" 0 ].




Definition negative_quantity_rows : list raw_row :=
  [ mk_raw_row (Some 1) "2024-01-01" "-3" (Some "US") "A" 1;
    mk_raw_row (Some 2) "not a date" "5" (Some "FR") "B" 0 ].

(** * Lemmas *)

Lemma mem_str_In : forall x l, mem_str x l = true <-> In x l.
Proof.
  intros x l. unfold mem_str. rewrite existsb_exists. split.
  - intros [y [Hy Heq]]. apply String.eqb_eq in Heq. now subst.
  - intros H. exists x. split; [exact H | apply String.eqb_refl].
Qed.

Section Unique.
Context {A : Type} (eqb : A -> A -> bool).
Hypothesis eqb_true : forall a b, eqb a b = true <-> a = b.

Lemma existsb_eqb_In : forall x l, existsb (eqb x) l = true <-> In x l.
Proof.
  intros x l. rewrite existsb_exists. split.
  - intros [y [Hy Heq]]. apply eqb_true in Heq. now subst.
  - intros H. exists x. split; [exact H | now apply eqb_true].
Qed.

Lemma In_unique_from : forall l seen x,
  In x (unique_from eqb seen l) <-> In x l /\ ~ In x seen.
Proof.
  induction l as [|y r IH]; intros seen x; simpl.
  - tauto.
  - destruct (existsb (eqb y) seen) eqn:E.
    + apply existsb_eqb_In in E. rewrite IH.
      split; [tauto|]. intros [[<-|H] Hn]; [contradiction | tauto].
    + assert (Hy : ~ In y seen) by (intro H; apply existsb_eqb_In in H; congruence).
      simpl. rewrite IH, in_app_iff. simpl.
      split.
      * intros [<-|[H1 H2]]; [tauto | split; tauto].
      * intros [[<-|H1] H2]; [now left|].
        destruct (eqb x y) eqn:Exy.
        -- apply eqb_true in Exy. now left.
        -- right. split; [exact H1|].
           intros [H3|[H3|[]]]; [contradiction|].
           subst. rewrite (proj2 (eqb_true _ _) eq_refl) in Exy. discriminate.
Qed.

Lemma In_unique : forall l x, In x (unique eqb l) <-> In x l.
Proof. intros l x. unfold unique. rewrite In_unique_from. simpl. tauto. Qed.

Lemma NoDup_unique_from : forall l seen, NoDup (unique_from eqb seen l).
Proof.
  induction l as [|y r IH]; intros seen; simpl.
  - constructor.
  - destruct (existsb (eqb y) seen); [apply IH|].
    constructor; [|apply IH].
    rewrite In_unique_from, in_app_iff. simpl. tauto.
Qed.

Lemma NoDup_unique : forall l, NoDup (unique eqb l).
Proof. intros l. apply NoDup_unique_from. Qed.
End Unique.

Lemma Z_eqb_true : forall a b, Z.eqb a b = true <-> a = b.
Proof. exact Z.eqb_eq. Qed.

Lemma str_eqb_true : forall a b, String.eqb a b = true <-> a = b.
Proof. exact String.eqb_eq. Qed.

Lemma opt_str_eqb_true : forall a b, opt_str_eqb a b = true <-> a = b.
Proof.
  intros [x|] [y|]; simpl; split; intros H; try discriminate; try reflexivity.
  - apply String.eqb_eq in H. now subst.
  - injection H as ->. apply String.eqb_refl.
Qed.

Lemma mem_opt_In : forall x l, mem_opt x l = true <-> In x l.
Proof. intros x l. apply (existsb_eqb_In opt_str_eqb opt_str_eqb_true). Qed.

Lemma In_present : forall {A} (l : list (option A)) x, In x (present l) <-> In (Some x) l.
Proof.
  intros A l x. induction l as [|[y|] r IH]; simpl; [tauto| |].
  - rewrite IH. split; intros [H|H]; auto; left; congruence.
  - rewrite IH. split; [auto | intros [H|H]; [discriminate | exact H]].
Qed.

Lemma length_present : forall {A} (l : list (option A)),
  length (present l) = length (filter (fun o => match o with Some _ => true | None => false end) l).
Proof. intros A l. induction l as [|[y|] r IH]; simpl; congruence. Qed.

Lemma length_filter_map : forall {A B} (f : B -> bool) (g : A -> B) l,
  length (filter f (map g l)) = length (filter (fun x => f (g x)) l).
Proof.
  intros A B f g l. induction l as [|x r IH]; simpl; [reflexivity|].
  destruct (f (g x)); simpl; congruence.
Qed.

(** ** int64 wrap-around *)

Lemma wrap64_shift : forall z, exists k, wrap64 z = z + 2 ^ 64 * k.
Proof.
  intros z. unfold wrap64. exists (- ((z + 2 ^ 63) / 2 ^ 64)).
  rewrite Z.mod_eq by lia. lia.
Qed.

Lemma wrap64_add_mul : forall z k, wrap64 (z + 2 ^ 64 * k) = wrap64 z.
Proof.
  intros z k. unfold wrap64.
  replace (z + 2 ^ 64 * k + 2 ^ 63) with ((z + 2 ^ 63) + k * 2 ^ 64) by ring.
  rewrite Z.mod_add by lia. reflexivity.
Qed.


Lemma wrap64_sum_map : forall {A} (f : A -> Z) l,
  exists k, sumZ (map (fun x => wrap64 (f x)) l) = sumZ (map f l) + 2 ^ 64 * k.
Proof.
  intros A f l. induction l as [|x r [k2 E2]]; cbn [sumZ map].
  - exists 0. lia.
  - destruct (wrap64_shift (f x)) as [k1 E1]. exists (k1 + k2). rewrite E1, E2. lia.
Qed.

(** ** Traversals *)

Lemma traverse_option_Some : forall {A B} (f : A -> option B) l l',
  traverse_option f l = Some l' <-> Forall2 (fun x y => f x = Some y) l l'.
Proof.
  intros A B f. induction l as [|x r IH]; intros l'; simpl.
  - split; [intros H; injection H as <-; constructor | intros H; inversion H; reflexivity].
  - destruct (f x) as [y|] eqn:Ef; destruct (traverse_option f r) as [ys|] eqn:Er;
      (split; [|intros H; inversion H as [|? ? ? ? Hxy Hr]; subst; apply IH in Hr; congruence]).
    + intros H. injection H as <-. constructor; [exact Ef | now apply IH].
    + discriminate.
    + discriminate.
    + discriminate.
Qed.

Lemma traverse_option_None : forall {A B} (f : A -> option B) l,
  traverse_option f l = None <-> exists x, In x l /\ f x = None.
Proof.
  intros A B f. induction l as [|x r IH]; simpl.
  - split; [discriminate | intros [y [[] _]]].
  - destruct (f x) as [y|] eqn:Ef.
    + destruct (traverse_option f r) as [ys|] eqn:Er.
      * split; [discriminate|]. intros [z [[<-|Hz] Hfz]]; [congruence|].
        assert (Some ys = None) by (apply IH; eauto). discriminate.
      * split; [intros _ | reflexivity].
        destruct (proj1 IH eq_refl) as [z [Hz Hfz]]. eauto.
    + split; [intros _; eauto | reflexivity].
Qed.

Lemma Forall2_map_l : forall {A B C} (R : B -> C -> Prop) (g : A -> B) l l',
  Forall2 R (map g l) l' -> Forall2 (fun x y => R (g x) y) l l'.
Proof.
  intros A B C R g l. induction l as [|x r IH]; intros [|y l'] H; inversion H; subst;
    constructor; auto.
Qed.

Lemma Forall2_in_impl : forall {A B} (R1 R2 : A -> B -> Prop) l l',
  (forall a b, In a l -> R1 a b -> R2 a b) -> Forall2 R1 l l' -> Forall2 R2 l l'.
Proof.
  intros A B R1 R2 l l' H HF. induction HF as [|a b l l' Hab HF IH]; constructor.
  - apply H; [now left | exact Hab].
  - apply IH. intros a' b' Ha'. apply H. now right.
Qed.

Lemma dropna_convert : forall (f : raw_row -> option Z) l,
  dropna_orderdate (map (fun r => (f r, r)) l)
  = map (fun r => (f r, r)) (filter (fun r => match f r with Some _ => true | None => false end) l).
Proof.
  intros f l. unfold dropna_orderdate. induction l as [|r l IH]; simpl; [reflexivity|].
  destruct (f r) eqn:E; simpl; rewrite IH; [rewrite E|]; reflexivity.
Qed.

(** ** Insertion sort *)

Section Sorting.
Context {A : Type} (le : A -> A -> bool).
Hypothesis le_total : forall a b, le a b = false -> le b a = true.

Let R a b := le a b = true.

Lemma insert_perm : forall x l, Permutation (insert le x l) (x :: l).
Proof.
  intros x l. induction l as [|y r IH]; simpl; [reflexivity|].
  destruct (le x y); [reflexivity|].
  rewrite IH. apply perm_swap.
Qed.

Lemma isort_perm : forall l, Permutation (isort le l) l.
Proof.
  induction l as [|x r IH]; simpl; [reflexivity|].
  rewrite insert_perm. now apply perm_skip.
Qed.

Lemma isort_length : forall l, length (isort le l) = length l.
Proof. intros l. apply Permutation_length, isort_perm. Qed.

Lemma insert_HdRel : forall y x l,
  HdRel R y l -> R y x -> HdRel R y (insert le x l).
Proof.
  intros y x l Hl Hyx. destruct l as [|z r]; simpl.
  - now constructor.
  - destruct (le x z); constructor; [exact Hyx|]. now inversion Hl.
Qed.

Lemma insert_sorted : forall x l, Sorted R l -> Sorted R (insert le x l).
Proof.
  intros x l Hs. induction Hs as [|y r Hr IH Hhd]; simpl.
  - repeat constructor.
  - destruct (le x y) eqn:E.
    + constructor; [now constructor | now constructor].
    + constructor; [exact IH|]. apply insert_HdRel; [exact Hhd|].
      unfold R. now apply le_total.
Qed.

Lemma isort_sorted : forall l, Sorted R (isort le l).
Proof.
  induction l as [|x r IH]; simpl; [constructor|]. now apply insert_sorted.
Qed.
End Sorting.

Lemma Sorted_weaken : forall {A} (R S : A -> A -> Prop),
  (forall a b, R a b -> S a b) -> forall l, Sorted R l -> Sorted S l.
Proof.
  intros A R S HRS l Hs. induction Hs as [|a l Hl IH Hhd]; constructor; [exact IH|].
  destruct Hhd; constructor. now apply HRS.
Qed.

(** ** Sums *)

Lemma sumZ_app : forall l1 l2, sumZ (l1 ++ l2)%list = sumZ l1 + sumZ l2.
Proof. induction l1 as [|x r IH]; intros l2; simpl; [lia | rewrite IH; lia]. Qed.

Lemma sumZ_perm : forall l1 l2, Permutation l1 l2 -> sumZ l1 = sumZ l2.
Proof. intros l1 l2 H. induction H; simpl; lia. Qed.



(** ** [groupby] *)

Section GroupBy.
Context {K V : Type} (eqb : K -> K -> bool).

Lemma group_push_keys : forall k (v : V) acc,
  map fst (group_push eqb k v acc) =
  if existsb (eqb k) (map fst acc) then map fst acc else (map fst acc ++ [k])%list.
Proof.
  intros k v acc. induction acc as [|[k' vs] r IH]; simpl; [reflexivity|].
  destruct (eqb k k'); simpl; [reflexivity|].
  rewrite IH. now destruct (existsb (eqb k) (map fst r)).
Qed.

Lemma group_fold_keys : forall (kvs : list (K * V)) acc,
  map fst (group_fold eqb kvs acc) =
  (map fst acc ++ unique_from eqb (map fst acc) (map fst kvs))%list.
Proof.
  unfold group_fold.
  induction kvs as [|[k v] r IH]; intros acc; simpl.
  - now rewrite app_nil_r.
  - rewrite IH, group_push_keys.
    destruct (existsb (eqb k) (map fst acc)); [reflexivity|].
    now rewrite <- app_assoc.
Qed.

Lemma group_fold_length : forall (kvs : list (K * V)),
  length (group_fold eqb kvs []) = length (unique eqb (map fst kvs)).
Proof.
  intros kvs. rewrite <- (length_map fst), group_fold_keys. reflexivity.
Qed.
End GroupBy.

Definition group_total {K} (acc : list (K * list Z)) : Z :=
  sumZ (map (fun g => sumZ (snd g)) acc).

Lemma group_push_total : forall {K} (eqb : K -> K -> bool) k v acc,
  group_total (group_push eqb k v acc) = group_total acc + v.
Proof.
  intros K eqb k v acc. unfold group_total.
  induction acc as [|[k' vs] r IH]; simpl; [lia|].
  destruct (eqb k k'); simpl.
  - rewrite sumZ_app. simpl. lia.
  - rewrite IH. lia.
Qed.

Lemma group_fold_total : forall {K} (eqb : K -> K -> bool) kvs acc,
  group_total (group_fold eqb kvs acc) = group_total acc + sumZ (map snd kvs).
Proof.
  intros K eqb kvs. unfold group_fold.
  induction kvs as [|[k v] r IH]; intros acc; simpl; [lia|].
  rewrite IH, group_push_total. lia.
Qed.

Lemma groupby_list_total : forall {K} (eqb le : K -> K -> bool) kvs,
  sumZ (map (fun g => sumZ (snd g)) (groupby_list eqb le kvs)) = sumZ (map snd kvs).
Proof.
  intros K eqb le kvs. unfold groupby_list.
  rewrite (sumZ_perm _ (map (fun g => sumZ (snd g)) (group_fold eqb kvs []))).
  - change (group_total (group_fold eqb kvs []) = sumZ (map snd kvs)).
    rewrite group_fold_total. reflexivity.
  - apply Permutation_map, isort_perm.
Qed.

(** The wrapped group sums add up to the total, up to a multiple of 2^64. *)
Lemma groupby_sum_wrap : forall {K} (eqb le : K -> K -> bool) kvs,
  exists k, sumZ (map snd (groupby_sum eqb le kvs)) = sumZ (map snd kvs) + 2 ^ 64 * k.
Proof.
  intros K eqb le kvs. unfold groupby_sum. rewrite map_map. simpl.
  destruct (wrap64_sum_map (fun g => sumZ (snd g)) (groupby_list eqb le kvs)) as [k E].
  exists k. rewrite E, groupby_list_total. reflexivity.
Qed.

(** ** Rows with an order ID *)

Lemma by_ID_fst : forall {A} (f : row -> A) v, map fst (by_ID f v) = present (map ID v).
Proof.
  intros A f v. induction v as [|r v IH]; simpl; [reflexivity|].
  destruct (ID r); simpl; now rewrite IH.
Qed.

Lemma by_ID_filter : forall {A} (f : row -> A) v k,
  map snd (filter (fun kv => Z.eqb k (fst kv)) (by_ID f v)) = map f (filter (id_is k) v).
Proof.
  intros A f v k. induction v as [|r v IH]; simpl; [reflexivity|].
  unfold id_is at 1. destruct (ID r) as [j|]; simpl; [|exact IH].
  rewrite Z.eqb_sym. destruct (Z.eqb j k); simpl; now rewrite IH.
Qed.

Lemma by_ID_sum : forall v,
  sumZ (map snd (by_ID quantity v))
  + sumZ (map quantity (filter (fun r => match ID r with Some _ => false | None => true end) v))
  = sumZ (map quantity v).
Proof.
  induction v as [|r v IH]; simpl; [reflexivity|].
  destruct (ID r); simpl; lia.
Qed.

(** ** The co-occurrence [Counter] *)

Definition pair_dec : forall p q : pair, {p = q} + {p <> q}.
Proof. decide equality; apply string_dec. Defined.

Lemma pair_eqb_true : forall p q, pair_eqb p q = true <-> p = q.
Proof.
  intros [a b] [c d]. unfold pair_eqb. simpl.
  rewrite andb_true_iff, !String.eqb_eq. split.
  - intros [-> ->]. reflexivity.
  - intros H. now inversion H.
Qed.

Lemma counter_incr_get : forall k c p,
  counter_get (counter_incr k c) p = (counter_get c p + if pair_dec k p then 1 else 0)%nat.
Proof.
  intros k c p. induction c as [|[k' n] r IH]; simpl.
  - destruct (pair_eqb p k) eqn:E; destruct (pair_dec k p) as [->|Hne]; auto.
    + apply pair_eqb_true in E. congruence.
    + rewrite (proj2 (pair_eqb_true p p) eq_refl) in E. discriminate.
  - destruct (pair_eqb k k') eqn:Ekk; simpl.
    + apply pair_eqb_true in Ekk. subst k'.
      destruct (pair_eqb p k) eqn:E; destruct (pair_dec k p) as [->|Hne]; try lia.
      * apply pair_eqb_true in E. congruence.
      * rewrite (proj2 (pair_eqb_true p p) eq_refl) in E. discriminate.
    + rewrite IH. destruct (pair_eqb p k') eqn:E; [|reflexivity].
      apply pair_eqb_true in E. subst p.
      destruct (pair_dec k k') as [->|]; [|lia].
      rewrite (proj2 (pair_eqb_true k' k') eq_refl) in Ekk. discriminate.
Qed.

Lemma counter_update_get : forall l c p,
  counter_get (counter_update c l) p = (counter_get c p + count_occ pair_dec l p)%nat.
Proof.
  unfold counter_update.
  induction l as [|k r IH]; intros c p; simpl; [lia|].
  rewrite IH, counter_incr_get. destruct (pair_dec k p); lia.
Qed.

Lemma cooccurrences_fold_get : forall gs c p,
  counter_get (fold_left (fun c g => counter_update c (combinations2 (isort str_leb g))) gs c) p
  = (counter_get c p
     + list_sum (map (fun g => count_occ pair_dec (combinations2 (isort str_leb g)) p) gs))%nat.
Proof.
  induction gs as [|g r IH]; intros c p; simpl; [lia|].
  rewrite IH, counter_update_get. lia.
Qed.

Lemma combinations2_length : forall {A} (l : list A),
  (2 * length (combinations2 l) = length l * (length l - 1))%nat.
Proof.
  intros A l. induction l as [|x r IH]; simpl; [reflexivity|].
  rewrite length_app, length_map. destruct (length r); nia.
Qed.

Lemma str_compare_refl : forall x, String.compare x x = Eq.
Proof.
  intros x. pose proof (String.compare_antisym x x) as H.
  destruct (String.compare x x); simpl in H; congruence.
Qed.

Lemma str_leb_refl : forall x, str_leb x x = true.
Proof. intros x. unfold str_leb. now rewrite str_compare_refl. Qed.

Lemma str_leb_lt : forall x y, String.compare x y = Lt -> str_leb x y = true /\ str_leb y x = false.
Proof.
  intros x y H. unfold str_leb. rewrite H, (String.compare_antisym y x), H.
  simpl. split; reflexivity.
Qed.

Lemma str_leb_total : forall a b, str_leb a b = false -> str_leb b a = true.
Proof.
  intros a b. unfold str_leb. rewrite (String.compare_antisym b a).
  destruct (String.compare a b); simpl; congruence.
Qed.

(** ** Filters *)

Lemma filter_data_incl : forall data c r, In r (filter_data data c) -> In r data.
Proof.
  intros data c r H. unfold filter_data, base_filter in H.
  apply filter_In in H as [H _]. now apply filter_In in H as [H _].
Qed.

Lemma analyze_filter_eq : forall data c1 c2 opt,
  filter_data data c1 = filter_data data c2 -> analyze data c1 opt = analyze data c2 opt.
Proof. intros data c1 c2 opt H. unfold analyze. now rewrite H. Qed.


Lemma filter_data_countries_ext : forall data c l,
  (forall r, In r data ->
     mem_opt (shipcountrycode r) (expand_countries data (selected_countries c))
     = mem_opt (shipcountrycode r) (expand_countries data l)) ->
  filter_data data c = filter_data data (with_countries c l).
Proof.
  intros data c l H. unfold filter_data, base_filter, with_countries. simpl.
  f_equal. apply filter_ext_in. intros r Hr. now rewrite H.
Qed.

Lemma filter_data_refs_ext : forall data c l,
  (forall r, In r data ->
     mem_str (ref_total r) (expand_refs data (selected_product_refs c))
     = mem_str (ref_total r) (expand_refs data l)) ->
  filter_data data c = filter_data data (with_refs c l).
Proof.
  intros data c l H. unfold filter_data, base_filter, with_refs. simpl.
  f_equal. apply filter_ext_in. intros r Hr. now rewrite H.
Qed.

Lemma mem_expand_countries : forall data sel r, In r data ->
  mem_opt (Some "All Countries") sel = true \/ In (shipcountrycode r) sel ->
  mem_opt (shipcountrycode r) (expand_countries data sel) = true.
Proof.
  intros data sel r Hr Hs. unfold expand_countries.
  destruct (mem_opt (Some "All Countries") sel) eqn:E; apply mem_opt_In.
  - apply (In_unique opt_str_eqb opt_str_eqb_true). now apply in_map.
  - destruct Hs; [discriminate | assumption].
Qed.

Lemma mem_expand_refs : forall data sel r, In r data ->
  mem_str "All Refs" sel = true \/ In (ref_total r) sel ->
  mem_str (ref_total r) (expand_refs data sel) = true.
Proof.
  intros data sel r Hr Hs. unfold expand_refs.
  destruct (mem_str "All Refs" sel) eqn:E; apply mem_str_In.
  - apply (In_unique String.eqb str_eqb_true). now apply in_map.
  - destruct Hs; [discriminate | assumption].
Qed.

Lemma forallb_filter_negb : forall {A} (f : A -> bool) l,
  forallb f l = true <-> filter (fun x => negb (f x)) l = [].
Proof.
  intros A f l. induction l as [|x r IH]; simpl; [tauto|].
  destruct (f x); simpl; [exact IH|]. split; discriminate.
Qed.

Lemma filter_data_In : forall data c r,
  In r (filter_data data c) <->
  In r data /\ ts_ge (orderdate r) (ts_of_date (date_lo c)) = true
  /\ ts_le (orderdate r) (ts_of_date (date_hi c)) = true
  /\ mem_opt (shipcountrycode r) (expand_countries data (selected_countries c)) = true
  /\ mem_str (ref_total r) (expand_refs data (selected_product_refs c)) = true
  /\ vip_keep (vip_filter c) r = true.
Proof.
  intros data c r. unfold filter_data, base_filter. rewrite !filter_In, !andb_true_iff.
  tauto.
Qed.

Lemma filter_id_in : forall {A} (f : A -> bool) l,
  (forall x, In x l -> f x = true) -> filter f l = l.
Proof.
  intros A f l H. induction l as [|x r IH]; simpl; [reflexivity|].
  rewrite H by (now left). f_equal. apply IH. intros y Hy. apply H. now right.
Qed.





Lemma length_vip_split : forall l : list row,
  length l = (length (filter (fun r => Z.eqb (Vip r) 1) l)
              + length (filter (fun r => Z.eqb (Vip r) 0) l)
              + length (filter (fun r => negb (Z.eqb (Vip r) 0 || Z.eqb (Vip r) 1)) l))%nat.
Proof.
  induction l as [|r l IH]; simpl; [reflexivity|].
  destruct (Z.eqb (Vip r) 1) eqn:E1, (Z.eqb (Vip r) 0) eqn:E0; simpl;
    try (apply Z.eqb_eq in E1; apply Z.eqb_eq in E0; lia); lia.
Qed.

(** ** Lookup in the [groupby] accumulator *)

Section GroupLookup.
Context {K V : Type} (eqb : K -> K -> bool).
Hypothesis eqb_true : forall a b, eqb a b = true <-> a = b.

Lemma eqb_false_neq : forall a b, eqb a b = false -> a <> b.
Proof. intros a b H ->. rewrite (proj2 (eqb_true b b) eq_refl) in H. discriminate. Qed.

Lemma lookup_vals_push : forall k (v : V) acc k',
  lookup_vals eqb (group_push eqb k v acc) k'
  = (lookup_vals eqb acc k' ++ if eqb k' k then [v] else [])%list.
Proof.
  intros k v acc k'. induction acc as [|[k1 vs1] r IH]; simpl; [reflexivity|].
  destruct (eqb k k1) eqn:E.
  - apply eqb_true in E. subst k1. simpl.
    destruct (eqb k' k); [reflexivity | now rewrite app_nil_r].
  - simpl. rewrite IH. destruct (eqb k' k1) eqn:E'; [|reflexivity].
    apply eqb_true in E'. subst k'.
    destruct (eqb k1 k) eqn:E''; [|now rewrite app_nil_r].
    apply eqb_true in E''. subst. apply eqb_false_neq in E. contradiction.
Qed.

Lemma lookup_vals_fold : forall (kvs : list (K * V)) acc k',
  lookup_vals eqb (group_fold eqb kvs acc) k'
  = (lookup_vals eqb acc k' ++ map snd (filter (fun kv => eqb k' (fst kv)) kvs))%list.
Proof.
  unfold group_fold.
  induction kvs as [|[k v] r IH]; intros acc k'; simpl; [now rewrite app_nil_r|].
  rewrite IH, lookup_vals_push, <- app_assoc. simpl.
  destruct (eqb k' k); reflexivity.
Qed.

Lemma lookup_vals_In : forall (l : list (K * list V)) k vs,
  NoDup (map fst l) -> In (k, vs) l -> lookup_vals eqb l k = vs.
Proof.
  induction l as [|[k1 vs1] r IH]; intros k vs Hnd Hin; [destruct Hin|].
  simpl in *. inversion Hnd as [|? ? Hk1 Hr]; subst.
  destruct Hin as [E|Hin].
  - injection E as -> ->. now rewrite (proj2 (eqb_true k k) eq_refl).
  - destruct (eqb k k1) eqn:E.
    + apply eqb_true in E. subst. exfalso. apply Hk1.
      change k1 with (fst (k1, vs)). now apply in_map.
    + now apply IH.
Qed.

Lemma groupby_list_perm : forall le (kvs : list (K * V)),
  Permutation (groupby_list eqb le kvs) (group_fold eqb kvs []).
Proof. intros le kvs. apply isort_perm. Qed.

Lemma groupby_list_keys : forall le (kvs : list (K * V)),
  Permutation (map fst (groupby_list eqb le kvs)) (unique eqb (map fst kvs)).
Proof.
  intros le kvs. rewrite (Permutation_map fst (groupby_list_perm le kvs)).
  rewrite group_fold_keys. reflexivity.
Qed.

Lemma groupby_list_NoDup : forall le (kvs : list (K * V)),
  NoDup (map fst (groupby_list eqb le kvs)).
Proof.
  intros le kvs. eapply Permutation_NoDup; [symmetry; apply groupby_list_keys|].
  now apply NoDup_unique.
Qed.

Lemma groupby_list_In : forall le (kvs : list (K * V)) k vs,
  In (k, vs) (groupby_list eqb le kvs) ->
  vs = map snd (filter (fun kv => eqb k (fst kv)) kvs).
Proof.
  intros le kvs k vs Hin.
  rewrite <- (lookup_vals_In (group_fold eqb kvs []) k vs).
  - rewrite lookup_vals_fold. reflexivity.
  - eapply Permutation_NoDup; [apply Permutation_map, (groupby_list_perm le)|].
    apply groupby_list_NoDup.
  - eapply Permutation_in; [apply groupby_list_perm | exact Hin].
Qed.

Lemma groupby_list_sorted : forall le (kvs : list (K * V)),
  (forall a b, le a b = false -> le b a = true) ->
  Sorted (fun a b => le (fst a) (fst b) = true) (groupby_list eqb le kvs).
Proof.
  intros le kvs Htot. unfold groupby_list. apply isort_sorted.
  intros a b. apply Htot.
Qed.
End GroupLookup.

Lemma map_snd_filter_pairs : forall {A K W} (eqb : K -> K -> bool) (f : A -> K) (g : A -> W) k l,
  map snd (filter (fun kv => eqb k (fst kv)) (map (fun r => (f r, g r)) l))
  = map g (filter (fun r => eqb k (f r)) l).
Proof.
  intros A K W eqb f g k l. induction l as [|x r IH]; simpl; [reflexivity|].
  destruct (eqb k (f x)); simpl; now rewrite IH.
Qed.


Lemma Sorted_firstn : forall {A} (R : A -> A -> Prop) n l,
  Sorted R l -> Sorted R (firstn n l).
Proof.
  intros A R n. induction n as [|n IH]; intros l Hs; [constructor|].
  destruct l as [|x r]; [constructor|]. simpl.
  apply Sorted_inv in Hs as [Hr Hhd]. constructor; [now apply IH|].
  destruct r as [|y r']; [destruct n; constructor|].
  destruct n; simpl; constructor. now inversion Hhd.
Qed.

Lemma NoDup_firstn : forall {A} n (l : list A), NoDup l -> NoDup (firstn n l).
Proof.
  intros A n l H. rewrite <- (firstn_skipn n l) in H. now apply NoDup_app_remove_r in H.
Qed.

Lemma In_firstn : forall {A} n (l : list A) x, In x (firstn n l) -> In x l.
Proof.
  intros A n l x H. rewrite <- (firstn_skipn n l). apply in_app_iff. now left.
Qed.

Lemma list_sum_perm : forall l l', Permutation l l' -> list_sum l = list_sum l'.
Proof.
  intros l l' H. induction H; simpl; lia.
Qed.

Lemma list_sum_map_add : forall {A} (f g : A -> nat) l,
  list_sum (map (fun x => (f x + g x)%nat) l) = (list_sum (map f l) + list_sum (map g l))%nat.
Proof. intros A f g l. induction l as [|x r IH]; simpl; lia. Qed.

Lemma list_sum_map_zero : forall {A} (l : list A), list_sum (map (fun _ => 0%nat) l) = 0%nat.
Proof. intros A l. induction l; simpl; lia. Qed.

Lemma sum_indicator_str : forall ks x, NoDup ks -> In x ks ->
  list_sum (map (fun c => if String.eqb c x then 1 else 0)%nat ks) = 1%nat.
Proof.
  induction ks as [|k r IH]; intros x Hnd Hin; [destruct Hin|].
  inversion Hnd as [|? ? Hk Hr]; subst. simpl.
  destruct (String.eqb k x) eqn:E.
  - apply String.eqb_eq in E. subst.
    rewrite (map_ext_in _ (fun _ => 0%nat)), list_sum_map_zero; [lia|].
    intros a Ha. destruct (String.eqb a x) eqn:E'; [|reflexivity].
    apply String.eqb_eq in E'. subst. contradiction.
  - apply String.eqb_neq in E. destruct Hin as [->|Hin]; [congruence|].
    rewrite IH; auto.
Qed.

Lemma sum_counts : forall l ks, NoDup ks -> (forall x, In x l -> In x ks) ->
  list_sum (map (fun c => count_str c l) ks) = length l.
Proof.
  induction l as [|x r IH]; intros ks Hnd Hcov.
  - unfold count_str. simpl. apply list_sum_map_zero.
  - rewrite (map_ext (fun c => count_str c (x :: r))
                     (fun c => ((if String.eqb c x then 1 else 0) + count_str c r)%nat)).
    + rewrite list_sum_map_add, sum_indicator_str, IH; simpl; auto with datatypes.
    + intros c. unfold count_str. simpl. destruct (String.eqb c x); reflexivity.
Qed.

Lemma count_str_pos : forall c l, In c l -> (1 <= count_str c l)%nat.
Proof.
  intros c l H. unfold count_str.
  destruct (filter (String.eqb c) l) eqn:E; simpl; [|lia].
  assert (In c (filter (String.eqb c) l)) by (apply filter_In; split; [exact H | apply String.eqb_refl]).
  rewrite E in H0. destruct H0.
Qed.

Lemma StronglySorted_app_between : forall {A} (R : A -> A -> Prop) l1 l2 x y,
  StronglySorted R (l1 ++ l2) -> In x l1 -> In y l2 -> R x y.
Proof.
  intros A R l1. induction l1 as [|a r IH]; intros l2 x y Hs Hx Hy; [destruct Hx|].
  simpl in Hs. apply StronglySorted_inv in Hs as [Hs Hall].
  destruct Hx as [->|Hx].
  - rewrite Forall_forall in Hall. apply Hall, in_app_iff. now right.
  - eapply IH; eauto.
Qed.

Lemma str_compare_OT : forall a b, OrdersEx.String_as_OT.compare a b = String.compare a b.
Proof.
  induction a as [|c a IH]; destruct b as [|d b]; simpl; try reflexivity.
Qed.

Lemma str_leb_trans : forall a b c,
  str_leb a b = true -> str_leb b c = true -> str_leb a c = true.
Proof.
  intros a b c. unfold str_leb.
  destruct (String.compare a b) eqn:Hab; try discriminate;
  destruct (String.compare b c) eqn:Hbc; try discriminate; intros _ _.
  - apply String.compare_eq_iff in Hab, Hbc. subst. now rewrite str_compare_refl.
  - apply String.compare_eq_iff in Hab. subst. now rewrite Hbc.
  - apply String.compare_eq_iff in Hbc. subst. now rewrite Hab.
  - assert (H : OrdersEx.String_as_OT.lt a c).
    { transitivity b; unfold OrdersEx.String_as_OT.lt; now rewrite str_compare_OT. }
    unfold OrdersEx.String_as_OT.lt in H. rewrite str_compare_OT in H. now rewrite H.
Qed.

Lemma counter_incr_fst : forall k c x,
  In x (map fst (counter_incr k c)) -> x = k \/ In x (map fst c).
Proof.
  intros k c x. induction c as [|[k' n] r IH]; simpl.
  - intros [->|[]]. now left.
  - destruct (pair_eqb k k'); simpl; [tauto|].
    intros [->|H]; [tauto|]. apply IH in H. tauto.
Qed.

Lemma counter_incr_inv : forall (P : pair -> Prop) k c, P k ->
  NoDup (map fst c) -> (forall k' n, In (k', n) c -> P k' /\ (1 <= n)%nat) ->
  NoDup (map fst (counter_incr k c)) /\
  (forall k' n, In (k', n) (counter_incr k c) -> P k' /\ (1 <= n)%nat).
Proof.
  intros P k c Hk. induction c as [|[k0 n0] r IH]; intros Hnd Hall; simpl.
  - split; [repeat constructor; simpl; tauto|].
    intros k' n [E|[]]. injection E as <- <-. split; [exact Hk | lia].
  - inversion Hnd as [|? ? Hk0 Hr]; subst.
    destruct (pair_eqb k k0) eqn:E; simpl.
    + split; [exact Hnd|]. intros k' n [E'|Hin].
      * injection E' as <- <-. destruct (Hall k0 n0 (or_introl eq_refl)). split; [assumption | lia].
      * apply Hall. now right.
    + destruct IH as [IHnd IHall]; [exact Hr | intros; apply Hall; now right |].
      split.
      * constructor; [|exact IHnd]. intros Hin. apply counter_incr_fst in Hin as [->|Hin].
        -- rewrite (proj2 (pair_eqb_true k k) eq_refl) in E. discriminate.
        -- contradiction.
      * intros k' n [E'|Hin]; [injection E' as <- <-; apply Hall; now left | now apply IHall].
Qed.

Lemma counter_update_inv : forall (P : pair -> Prop) l c, (forall k, In k l -> P k) ->
  NoDup (map fst c) -> (forall k' n, In (k', n) c -> P k' /\ (1 <= n)%nat) ->
  NoDup (map fst (counter_update c l)) /\
  (forall k' n, In (k', n) (counter_update c l) -> P k' /\ (1 <= n)%nat).
Proof.
  unfold counter_update. intros P l. induction l as [|k r IH]; intros c Hl Hnd Hall; simpl.
  - now split.
  - destruct (counter_incr_inv P k c) as [H1 H2]; [auto with datatypes | exact Hnd | exact Hall |].
    apply IH; auto with datatypes.
Qed.

Lemma counter_incr_total : forall k c, counter_total (counter_incr k c) = S (counter_total c).
Proof.
  intros k c. unfold counter_total. induction c as [|[k' n] r IH]; simpl; [reflexivity|].
  destruct (pair_eqb k k'); simpl; lia.
Qed.

Lemma counter_update_total : forall l c,
  counter_total (counter_update c l) = (counter_total c + length l)%nat.
Proof.
  unfold counter_update. induction l as [|k r IH]; intros c; simpl; [lia|].
  rewrite IH, counter_incr_total. lia.
Qed.

Lemma combinations2_In : forall {A} (R : A -> A -> Prop) l x y,
  In (x, y) (combinations2 l) -> StronglySorted R l -> In x l /\ In y l /\ R x y.
Proof.
  intros A R l. induction l as [|a r IH]; intros x y Hin Hs; [destruct Hin|].
  apply StronglySorted_inv in Hs as [Hs Hall]. simpl in Hin.
  apply in_app_iff in Hin as [Hin|Hin].
  - apply in_map_iff in Hin as [y' [E Hy]]. injection E as <- <-.
    rewrite Forall_forall in Hall. simpl. auto.
  - destruct (IH x y Hin Hs) as [Hx [Hy Hr]]. simpl. auto.
Qed.

(** * The claims *)

(** C3: on the spec's three-row example (orders 1 and 2, products A and B,
    countries US and FR) with the sidebar defaults, Country Analysis reports
    2 orders and 2 countries, and Product Analysis reports a total quantity of
    7, popular products [(A,6); (B,1)] and the co-occurrence table
    [((A,B),1)]. *)
Theorem example_end_to_end :
  (exists cr, run_example CountryAnalysis = CountryReport cr
              /\ total_orders cr = 2%nat /\ unique_countries cr = 2%nat) /\
  (exists pr, run_example ProductAnalysis = ProductReport pr
              /\ total_quantity pr = 7
              /\ popular pr = [("A", 6); ("B", 1)]
              /\ cooccurrence_table pr = [(("A", "B"), 1%nat)]).
Proof.
  split; vm_compute; eexists; repeat split.
Qed.

(** C5: with "All Countries" (resp. "All Refs") selected, the filtered view,
    and so every analysis result, is the one obtained by selecting
    explicitly any list holding exactly the countries (resp. references)
    present in the table. *)
Theorem all_sentinel_equals_explicit_domain : forall data c opt lc lr,
  (forall x, In x lc <-> In x (map shipcountrycode data)) ->
  (forall x, In x lr <-> In x (map ref_total data)) ->
  (mem_opt (Some "All Countries") (selected_countries c) = true ->
     filter_data data c = filter_data data (with_countries c lc)
     /\ analyze data c opt = analyze data (with_countries c lc) opt) /\
  (mem_str "All Refs" (selected_product_refs c) = true ->
     filter_data data c = filter_data data (with_refs c lr)
     /\ analyze data c opt = analyze data (with_refs c lr) opt).
Proof.
  intros data c opt lc lr Hlc Hlr. split; intros Hs.
  - assert (E : filter_data data c = filter_data data (with_countries c lc)).
    { apply filter_data_countries_ext. intros r Hr.
      rewrite !mem_expand_countries; auto.
      right. apply Hlc. now apply in_map. }
    split; [exact E | now apply analyze_filter_eq].
  - assert (E : filter_data data c = filter_data data (with_refs c lr)).
    { apply filter_data_refs_ext. intros r Hr.
      rewrite !mem_expand_refs; auto.
      right. apply Hlr. now apply in_map. }
    split; [exact E | now apply analyze_filter_eq].
Qed.


(** C7: if a required column is missing, [main] ends with the column error,
    whatever the rows and the cell parsers (nothing is converted or
    aggregated); the message lists exactly the required columns that are
    absent; with all six columns present no column error is produced. *)
Theorem schema_check : forall to_datetime to_numeric t ui opt,
  (all_columns_present (columns t) = false ->
     main to_datetime to_numeric t ui opt = SchemaError (schema_error_message (columns t))) /\
  (all_columns_present (columns t) = true ->
     forall msg, main to_datetime to_numeric t ui opt <> SchemaError msg) /\
  (forall x, In x (missing_columns (columns t)) <-> In x expected_columns /\ ~ In x (columns t)) /\
  (all_columns_present (columns t) = true <-> missing_columns (columns t) = []).
Proof.
  intros tdt tn t ui opt. split; [|split; [|split]].
  - intros H. unfold main. now rewrite H.
  - intros H msg. unfold main. rewrite H.
    destruct (preprocess tdt tn (raw_rows t)) as [[|r0 rest]|]; try discriminate.
    unfold analyze. destruct (filter_data _ _); [discriminate|]. destruct opt; discriminate.
  - intros x. unfold missing_columns. rewrite filter_In, <- (mem_str_In x (columns t)).
    destruct (mem_str x (columns t)); simpl; split; intros [H1 H2].
    + discriminate.
    + exfalso. now apply H2.
    + split; [exact H1 | discriminate].
    + split; [exact H1 | reflexivity].
  - apply forallb_filter_negb.
Qed.

(** C8: the customer-type filter keeps, among the rows passing the other
    filters, those with [Vip = 1] for "VIP", those with [Vip = 0] for
    "Non-VIP", and all of them for "All Customers"; a row whose flag is
    neither 0 nor 1 is dropped by both "VIP" and "Non-VIP". *)
Theorem vip_filter_strict : forall data c r,
  (In r (filter_data data c) <->
     In r (base_filter data c) /\
     match vip_filter c with
     | AllCustomers => True
     | VIP => Vip r = 1
     | NonVIP => Vip r = 0
     end) /\
  (Vip r <> 0 -> Vip r <> 1 -> vip_filter c <> AllCustomers -> ~ In r (filter_data data c)).
Proof.
  intros data c r.
  assert (Hiff : In r (filter_data data c) <->
     In r (base_filter data c) /\
     match vip_filter c with
     | AllCustomers => True
     | VIP => Vip r = 1
     | NonVIP => Vip r = 0
     end).
  { unfold filter_data. rewrite filter_In.
    destruct (vip_filter c); simpl; rewrite ?Z.eqb_eq; tauto. }
  split; [exact Hiff|].
  intros H0 H1 Hall Hin. apply Hiff in Hin as [_ Hm].
  destruct (vip_filter c); tauto.
Qed.

(** C10: a selection containing "All Countries" (resp. "All Refs") is
    replaced by the distinct values of the column, so any other entries of
    the selection do not change the filtered view. *)
Theorem sentinel_overrides_explicit : forall data c selc selr,
  (mem_opt (Some "All Countries") selc = true ->
     expand_countries data selc = unique opt_str_eqb (map shipcountrycode data) /\
     filter_data data (with_countries c selc)
     = filter_data data (with_countries c [Some "All Countries"])) /\
  (mem_str "All Refs" selr = true ->
     expand_refs data selr = unique String.eqb (map ref_total data) /\
     filter_data data (with_refs c selr) = filter_data data (with_refs c ["All Refs"])).
Proof.
  intros data c selc selr. split; intros Hs.
  - split; [unfold expand_countries; now rewrite Hs|].
    rewrite (filter_data_countries_ext data (with_countries c selc) [Some "All Countries"]).
    + reflexivity.
    + intros r Hr. simpl. rewrite !mem_expand_countries; auto.
  - split; [unfold expand_refs; now rewrite Hs|].
    rewrite (filter_data_refs_ext data (with_refs c selr) ["All Refs"]).
    + reflexivity.
    + intros r Hr. simpl. rewrite !mem_expand_refs; auto.
Qed.

(** C2 (amended): let [kept] be the CSV rows whose date cell parses (with
    the format [pd.to_datetime] infers from the whole column).  When the
    conversion succeeds, the table has one record per kept row, in order,
    carrying that row's parsed timestamp, its other cells, and as quantity
    what [astype(int)] makes of the number [pd.to_numeric] gives the cell
    (in the column of the kept rows), 0 when the cell is not a number; such
    a quantity may be negative.  The conversion fails exactly when some
    kept row's quantity is an infinite float.  The filters only keep
    records of the table. *)
Theorem preprocess_invariant : forall to_datetime to_numeric rs,
  let dcol := map raw_orderdate rs in
  let kept := filter (fun rr => match to_datetime dcol (raw_orderdate rr) with
                                | Some _ => true | None => false end) rs in
  let qcol := map raw_quantity kept in
  (forall data, preprocess to_datetime to_numeric rs = Some data ->
     Forall2 (fun rr r =>
       orderdate r = to_datetime dcol (raw_orderdate rr) /\ orderdate r <> None /\
       ID r = raw_ID rr /\ shipcountrycode r = raw_shipcountrycode rr /\
       ref_total r = raw_ref_total rr /\ Vip r = raw_Vip rr /\
       Some (quantity r) = astype_int (fillna0 (to_numeric qcol (raw_quantity rr))) /\
       (to_numeric qcol (raw_quantity rr) = None -> quantity r = 0)) kept data /\
     (forall c r, In r (filter_data data c) -> In r data)) /\
  (preprocess to_datetime to_numeric rs = None <->
     exists rr neg, In rr kept /\ to_numeric qcol (raw_quantity rr) = Some (FloatInf neg)).
Proof.
  intros tdt tn rs dcol kept qcol.
  set (f := fun rr => tdt dcol (raw_orderdate rr)).
  assert (Hps : dropna_orderdate (convert_dates tdt rs) = map (fun rr => (f rr, rr)) kept).
  { unfold convert_dates. apply dropna_convert. }
  assert (Hq : map (fun p => raw_quantity (snd p)) (map (fun rr => (f rr, rr)) kept) = qcol).
  { rewrite map_map. reflexivity. }
  assert (Hpre : preprocess tdt tn rs
                 = traverse_option (convert_row tn qcol) (map (fun rr => (f rr, rr)) kept)).
  { unfold preprocess. rewrite Hps, Hq. reflexivity. }
  rewrite Hpre. split.
  - intros data Hd. apply traverse_option_Some, Forall2_map_l in Hd. split.
    + eapply Forall2_in_impl; [|exact Hd]. intros rr r Hin Hc.
      unfold convert_row in Hc. cbv zeta in Hc. cbn [fst snd] in Hc.
      destruct (astype_int (fillna0 (tn qcol (raw_quantity rr)))) as [q|] eqn:Ea;
        [|discriminate].
      injection Hc as <-. simpl.
      apply filter_In in Hin as [_ Hsome]. fold (f rr) in Hsome.
      destruct (f rr) as [d|] eqn:Ed; [|discriminate].
      repeat split; try discriminate; try (unfold f in Ed; now rewrite Ed).
      intros Hn. rewrite Hn in Ea. simpl in Ea. now injection Ea.
    + intros c r. apply filter_data_incl.
  - rewrite traverse_option_None. split.
    + intros [p [Hp Hc]]. apply in_map_iff in Hp as [rr [<- Hrr]].
      unfold convert_row in Hc. cbv zeta in Hc. cbn [fst snd] in Hc.
      destruct (tn qcol (raw_quantity rr)) as [[z|q|neg]|] eqn:E; simpl in Hc;
        try discriminate.
      now exists rr, neg.
    + intros [rr [neg [Hrr Hn]]]. exists (f rr, rr).
      split; [apply in_map_iff; exists rr; split; [reflexivity | exact Hrr]|].
      unfold convert_row. simpl. now rewrite Hn.
Qed.

(** C2: a negative quantity cell is kept as a negative quantity. *)
Lemma negative_quantity_counterexample :
  exists data r, preprocess to_datetime_iso to_numeric_int negative_quantity_rows = Some data
                 /\ In r data /\ quantity r < 0.
Proof.
  eexists. eexists. split; [vm_compute; reflexivity|]. split; [left; reflexivity|].
  vm_compute. reflexivity.
Qed.

(** Witness of C2 on the two-row frame: the conversion succeeds, since no
    kept quantity is infinite. *)
Lemma preprocess_invariant_witness :
  preprocess to_datetime_iso to_numeric_int negative_quantity_rows <> None.
Proof.
  intros H.
  apply (proj2 (preprocess_invariant to_datetime_iso to_numeric_int negative_quantity_rows))
    in H.
  destruct H as [rr [neg [Hin Hn]]]. vm_compute in Hin.
  destruct Hin as [<-|[]]. vm_compute in Hn. discriminate.
Defined.




(** C1 (amended): the count of a pair is the number of times it occurs,
    summed over the orders, among the size-2 combinations of the order's
    sorted list of references, one per pair of rows (repeated references
    are not merged): an order with k rows gives k(k-1)/2 pairs; an order
    with the three references x < y < z, one row each, gives exactly
    (x,y), (x,z), (y,z); a one-row order gives none; two rows of the same
    reference x give the pair (x,x). *)
Theorem cooccurrence_pairs_per_order :
  (forall v p, counter_get (cooccurrences v) p =
     list_sum (map (fun g => count_occ pair_dec (combinations2 (isort str_leb g)) p)
                   (order_groups v))) /\
  (forall g : list string,
     2 * length (combinations2 (isort str_leb g)) = length g * (length g - 1))%nat /\
  (forall x y z g,
     String.compare x y = Lt -> String.compare y z = Lt -> String.compare x z = Lt ->
     In g [[x; y; z]; [x; z; y]; [y; x; z]; [y; z; x]; [z; x; y]; [z; y; x]] ->
     combinations2 (isort str_leb g) = [(x, y); (x, z); (y, z)]) /\
  (forall x, combinations2 (isort str_leb [x]) = []) /\
  (forall x, combinations2 (isort str_leb [x; x]) = [(x, x)]).
Proof.
  split; [|split; [|split; [|split]]].
  - intros v p. unfold cooccurrences. rewrite cooccurrences_fold_get. reflexivity.
  - intros g. rewrite combinations2_length, isort_length. reflexivity.
  - intros x y z g Hxy Hyz Hxz Hg.
    destruct (str_leb_lt _ _ Hxy) as [Exy Eyx].
    destruct (str_leb_lt _ _ Hyz) as [Eyz Ezy].
    destruct (str_leb_lt _ _ Hxz) as [Exz Ezx].
    simpl in Hg.
    destruct Hg as [<-|[<-|[<-|[<-|[<-|[<-|[]]]]]]];
      repeat progress (cbn [isort insert]; rewrite ?Exy, ?Eyx, ?Eyz, ?Ezy, ?Exz, ?Ezx);
      reflexivity.
  - intros x. reflexivity.
  - intros x. cbn [isort insert]. rewrite str_leb_refl. reflexivity.
Qed.

Lemma cooccurrence_pairs_per_order_witness :
  combinations2 (isort str_leb ["C"; "A"; "B"]) = [("A", "B"); ("A", "C"); ("B", "C")].
Proof.
  apply (proj1 (proj2 (proj2 cooccurrence_pairs_per_order)) "A" "B" "C").
  - vm_compute. reflexivity.
  - vm_compute. reflexivity.
  - vm_compute. reflexivity.
  - simpl. tauto.
Defined.

(** C1: one order with a single distinct reference, on two rows, adds the
    pair (A,A) to the counter. *)
Lemma duplicate_ref_counterexample :
  order_groups duplicate_ref_view = [["A"; "A"]]
  /\ length (unique String.eqb (map ref_total duplicate_ref_view)) = 1%nat
  /\ counter_get (cooccurrences duplicate_ref_view) ("A", "A") = 1%nat
  /\ cooccurrence_df duplicate_ref_view = [(("A", "A"), 1%nat)].
Proof. vm_compute. repeat split. Qed.

(** C9 (amended): the co-occurrence table holds the counter's items,
    sorted by count, non-increasing. *)
Theorem cooccurrence_df_sorted :
  forall v, Permutation (cooccurrence_df v) (cooccurrences v) /\
            Sorted (fun a b => (snd b <= snd a)%nat) (cooccurrence_df v).
Proof.
  intros v. unfold cooccurrence_df, sort_desc_nat. split.
  - apply isort_perm.
  - apply (Sorted_weaken (fun a b => Nat.leb (snd b) (snd a) = true)).
    + intros a b H. now apply Nat.leb_le.
    + apply isort_sorted. intros a b H.
      apply Nat.leb_gt in H. apply Nat.leb_le. lia.
Qed.

(** C9: two pairs with count 1 are listed (B,C) before (A,B). *)
Lemma tied_pairs_counterexample :
  cooccurrence_df tied_pairs_view = [(("B", "C"), 1%nat); (("A", "B"), 1%nat)] /\
  ~ Sorted spec_cooc_order (cooccurrence_df tied_pairs_view).
Proof.
  assert (E : cooccurrence_df tied_pairs_view
              = [(("B", "C"), 1%nat); (("A", "B"), 1%nat)]) by (vm_compute; reflexivity).
  split; [exact E|]. rewrite E. intros H.
  apply Sorted_inv in H as [_ Hhd]. apply HdRel_inv in Hhd.
  unfold spec_cooc_order in Hhd. simpl in Hhd.
  destruct Hhd as [Hlt | [_ Hle]]; [lia | vm_compute in Hle; discriminate].
Qed.

Lemma all_sentinel_equals_explicit_domain_witness :
  filter_data example_data (no_filters example_data)
  = filter_data example_data (with_countries (no_filters example_data) [Some "FR"; Some "US"]).
Proof.
  refine (proj1 (proj1 (all_sentinel_equals_explicit_domain example_data
            (no_filters example_data) ProductAnalysis [Some "FR"; Some "US"] ["B"; "A"] _ _) _)).
  - intros x. vm_compute. tauto.
  - intros x. vm_compute. tauto.
  - vm_compute. reflexivity.
Defined.



Lemma schema_check_witness :
  main to_datetime_iso to_numeric_int missing_vip_table no_filters ProductAnalysis
  = SchemaError (schema_error_message (columns missing_vip_table)).
Proof.
  refine (proj1 (schema_check to_datetime_iso to_numeric_int missing_vip_table
                   no_filters ProductAnalysis) _).
  vm_compute. reflexivity.
Defined.

Lemma vip_filter_strict_witness :
  ~ In (mk_row (Some 3) (Some (midnight 2024 1 1)) 1 (Some "US") "A" 2)
       (filter_data [mk_row (Some 3) (Some (midnight 2024 1 1)) 1 (Some "US") "A" 2]
                    (mk_criteria NonVIP (days_from_civil 2024 1 1) (days_from_civil 2024 1 1)
                                 [Some "All Countries"] ["All Refs"])).
Proof.
  apply (proj2 (vip_filter_strict [mk_row (Some 3) (Some (midnight 2024 1 1)) 1 (Some "US") "A" 2]
                  (mk_criteria NonVIP (days_from_civil 2024 1 1) (days_from_civil 2024 1 1)
                               [Some "All Countries"] ["All Refs"])
                  (mk_row (Some 3) (Some (midnight 2024 1 1)) 1 (Some "US") "A" 2))).
  - simpl. lia.
  - simpl. lia.
  - simpl. discriminate.
Defined.

Lemma sentinel_overrides_explicit_witness :
  filter_data example_data
    (with_countries (no_filters example_data) [Some "US"; Some "All Countries"])
  = filter_data example_data (with_countries (no_filters example_data) [Some "All Countries"]).
Proof.
  refine (proj2 (proj1 (sentinel_overrides_explicit example_data (no_filters example_data)
                          [Some "US"; Some "All Countries"] ["All Refs"]) _)).
  vm_compute. reflexivity.
Defined.

(** * Further properties of the script *)

(** Filtering a filtered view again with the same sidebar state changes
    nothing: with "All Countries"/"All Refs" the selection becomes the
    values of the view, which still hold every row of the view. *)
Theorem filter_data_idempotent : forall data c,
  filter_data (filter_data data c) c = filter_data data c.
Proof.
  intros data c. set (v := filter_data data c).
  unfold filter_data at 1, base_filter.
  rewrite (filter_id_in _ v), (filter_id_in _ v); [reflexivity| |].
  - intros r Hr. now apply filter_data_In in Hr.
  - intros r Hrv. pose proof Hrv as Hr.
    apply filter_data_In in Hr as (_ & H1 & H2 & H3 & H4 & _).
    rewrite H1, H2. simpl.
    assert (Hc : mem_opt (shipcountrycode r)
                   (expand_countries v (selected_countries c)) = true).
    { unfold expand_countries in *.
      destruct (mem_opt (Some "All Countries") (selected_countries c)); [|exact H3].
      apply mem_opt_In, (In_unique opt_str_eqb opt_str_eqb_true). now apply in_map. }
    assert (Hf : mem_str (ref_total r)
                   (expand_refs v (selected_product_refs c)) = true).
    { unfold expand_refs in *.
      destruct (mem_str "All Refs" (selected_product_refs c)); [|exact H4].
      apply mem_str_In, (In_unique String.eqb str_eqb_true). now apply in_map. }
    now rewrite Hc, Hf.
Qed.





(** The "All Customers" view splits into the "VIP" view, the "Non-VIP" view
    and the rows whose flag is neither 0 nor 1. *)
Theorem vip_views_partition : forall data c,
  length (filter_data data (with_vip c AllCustomers))
  = (length (filter_data data (with_vip c VIP))
     + length (filter_data data (with_vip c NonVIP))
     + length (filter (fun r => negb (Z.eqb (Vip r) 0 || Z.eqb (Vip r) 1))
                      (filter_data data (with_vip c AllCustomers))))%nat.
Proof.
  intros data c. unfold filter_data. simpl.
  change (base_filter data (with_vip c VIP)) with (base_filter data (with_vip c AllCustomers)).
  change (base_filter data (with_vip c NonVIP)) with (base_filter data (with_vip c AllCustomers)).
  rewrite filter_id_in by reflexivity. apply length_vip_split.
Qed.

(** The co-occurrence grouping [groupby("ID")["ref_total"].apply(list)]
    has one group per distinct order ID of the view (as many as "Total
    Orders"), keys ascending; the keys are the IDs of the rows that have
    one, and each group lists the references of that order's rows in row
    order, so a row without an ID is in no group. *)
Theorem order_groups_by_ID : forall v,
  let G := groupby_list Z.eqb Z.leb (by_ID ref_total v) in
  length (order_groups v) = total_orders (country_analysis v) /\
  Sorted (fun a b => fst a <= fst b) G /\
  NoDup (map fst G) /\
  (forall i, In i (map fst G) <-> exists r, In r v /\ ID r = Some i) /\
  (forall i refs, In (i, refs) G -> refs = map ref_total (filter (id_is i) v)).
Proof.
  intros v G.
  pose proof (groupby_list_keys Z.eqb Z.leb (by_ID ref_total v)) as Hk.
  rewrite by_ID_fst in Hk. fold G in Hk.
  split; [|split; [|split; [|split]]].
  - unfold order_groups. fold G. simpl. rewrite length_map.
    rewrite <- (length_map fst G). now apply Permutation_length.
  - eapply Sorted_weaken; [|apply groupby_list_sorted].
    + intros a b H. now apply Z.leb_le.
    + intros a b H. apply Z.leb_gt in H. apply Z.leb_le. lia.
  - apply groupby_list_NoDup. exact Z_eqb_true.
  - intros i. split.
    + intros Hi. apply (Permutation_in _ Hk), (In_unique Z.eqb Z_eqb_true), In_present in Hi.
      apply in_map_iff in Hi as [r [Er Hr]]. eauto.
    + intros [r [Hr Er]]. eapply Permutation_in; [symmetry; exact Hk|].
      apply (In_unique Z.eqb Z_eqb_true), In_present. rewrite <- Er. now apply in_map.
  - intros i refs Hin. apply groupby_list_In in Hin; [|exact Z_eqb_true].
    rewrite Hin. apply by_ID_filter.
Qed.

(** "Top 10 Popular Products by Quantity": at most 10 distinct references,
    by summed quantity, non-increasing; each shown quantity is the int64
    sum (wrapping around) of the quantities of that reference's rows; when
    the view has at most 10 distinct references, every one of them is
    shown. *)
Theorem popular_products_top10 : forall v,
  (length (popular_products v) <= 10)%nat /\
  Sorted (fun a b => snd b <= snd a) (popular_products v) /\
  NoDup (map fst (popular_products v)) /\
  (forall ref q, In (ref, q) (popular_products v) ->
     q = wrap64 (sumZ (map quantity (filter (fun r => String.eqb ref (ref_total r)) v)))) /\
  ((length (unique String.eqb (map ref_total v)) <= 10)%nat ->
     forall r, In r v -> In (ref_total r) (map fst (popular_products v))).
Proof.
  intros v. unfold popular_products.
  set (kvs := map (fun r => (ref_total r, quantity r)) v).
  set (G := groupby_sum String.eqb str_leb kvs).
  assert (HGk : Permutation (map fst G) (unique String.eqb (map ref_total v))).
  { unfold G, groupby_sum. rewrite map_map. simpl.
    pose proof (groupby_list_keys String.eqb str_leb kvs) as Hk.
    unfold kvs in Hk at 2. rewrite map_map in Hk. exact Hk. }
  assert (HS : Permutation (sort_desc G) G) by apply isort_perm.
  assert (HSk : Permutation (map fst (sort_desc G)) (unique String.eqb (map ref_total v)))
    by (rewrite (Permutation_map fst HS); exact HGk).
  split; [|split; [|split; [|split]]].
  - apply firstn_le_length.
  - apply Sorted_firstn.
    apply (Sorted_weaken (fun a b => Z.leb (snd b) (snd a) = true)).
    + intros a b H. now apply Z.leb_le.
    + apply isort_sorted. intros a b H. apply Z.leb_gt in H. apply Z.leb_le. lia.
  - rewrite <- firstn_map. apply NoDup_firstn.
    eapply Permutation_NoDup; [symmetry; exact HSk|].
    apply (NoDup_unique String.eqb str_eqb_true).
  - intros ref q Hin. apply In_firstn in Hin.
    apply (Permutation_in _ HS) in Hin.
    unfold G, groupby_sum in Hin. apply in_map_iff in Hin as [[k vs] [E Hg]].
    simpl in E. injection E as -> <-.
    apply groupby_list_In in Hg; [|exact str_eqb_true]. rewrite Hg.
    unfold kvs. now rewrite (map_snd_filter_pairs String.eqb ref_total quantity).
  - intros Hlen r Hr. rewrite firstn_all2.
    + eapply Permutation_in; [symmetry; exact HSk|].
      apply (In_unique String.eqb str_eqb_true). now apply in_map.
    + rewrite <- (length_map fst), (Permutation_length HSk). lia.
Qed.

(** "Total Quantity Sold" agrees, in int64 arithmetic, with the per-product
    sums of the popular-products chart added up, and with the per-order
    sums of the average order size added up together with the quantities
    of the rows without an order ID. *)
Theorem total_quantity_consistent : forall v,
  wrap64 (sumZ (map snd (groupby_sum String.eqb str_leb (map (fun r => (ref_total r, quantity r)) v))))
  = total_quantity_sold v /\
  wrap64 (sumZ (map snd (groupby_sum Z.eqb Z.leb (by_ID quantity v)))
          + sumZ (map quantity (filter (fun r => match ID r with Some _ => false | None => true end) v)))
  = total_quantity_sold v.
Proof.
  intros v. unfold total_quantity_sold. split.
  - destruct (groupby_sum_wrap String.eqb str_leb (map (fun r => (ref_total r, quantity r)) v))
      as [k E].
    rewrite E, wrap64_add_mul, map_map. reflexivity.
  - destruct (groupby_sum_wrap Z.eqb Z.leb (by_ID quantity v)) as [k E].
    rewrite E, <- (by_ID_sum v).
    replace (sumZ (map snd (by_ID quantity v)) + 2 ^ 64 * k
             + sumZ (map quantity (filter (fun r => match ID r with Some _ => false | None => true end) v)))
      with (sumZ (map snd (by_ID quantity v))
            + sumZ (map quantity (filter (fun r => match ID r with Some _ => false | None => true end) v))
            + 2 ^ 64 * k) by ring.
    apply wrap64_add_mul.
Qed.

(** Country Analysis: "Orders by Country" lists each country of the view
    once, with its number of rows (at least one), counts non-increasing;
    there are "Unique Countries" entries, the rows without a country are
    not counted, the counts add up to the number of rows that have a
    country, and no country left out of the top three has more orders than
    one shown in it. *)
Theorem orders_by_country_counts : forall v,
  let obc := orders_by_country (country_analysis v) in
  let codes := present (map shipcountrycode v) in
  Sorted (fun a b => (snd b <= snd a)%nat) obc /\
  NoDup (map fst obc) /\
  length obc = unique_countries (country_analysis v) /\
  (forall c, In c (map fst obc) <-> exists r, In r v /\ shipcountrycode r = Some c) /\
  (forall c n, In (c, n) obc -> n = count_str c codes /\ (1 <= n)%nat) /\
  list_sum (map snd obc)
  = length (filter (fun r => match shipcountrycode r with Some _ => true | None => false end) v) /\
  (forall a b, In a (top_three_countries (country_analysis v)) ->
     In b obc -> ~ In b (top_three_countries (country_analysis v)) ->
     (snd b <= snd a)%nat).
Proof.
  intros v obc codes.
  set (U := unique String.eqb codes).
  assert (HP : Permutation obc (map (fun c => (c, count_str c codes)) U))
    by apply isort_perm.
  assert (HK : Permutation (map fst obc) U).
  { rewrite (Permutation_map fst HP), map_map. simpl. now rewrite map_id. }
  assert (HSb : Sorted (fun a b => Nat.leb (snd b) (snd a) = true) obc).
  { apply isort_sorted. intros a b H. apply Nat.leb_gt in H. apply Nat.leb_le. lia. }
  split; [|split; [|split; [|split; [|split; [|split]]]]].
  - eapply Sorted_weaken; [|exact HSb]. intros a b H. now apply Nat.leb_le.
  - eapply Permutation_NoDup; [symmetry; exact HK|].
    apply (NoDup_unique String.eqb str_eqb_true).
  - simpl. rewrite <- (length_map fst obc). now apply Permutation_length.
  - intros c. split.
    + intros Hc. apply (Permutation_in _ HK) in Hc. unfold U in Hc.
      apply (proj1 (In_unique String.eqb str_eqb_true _ _)) in Hc. unfold codes in Hc.
      apply In_present, in_map_iff in Hc as [r [Er Hr]]. eauto.
    + intros [r [Hr Er]]. eapply Permutation_in; [symmetry; exact HK|].
      apply (In_unique String.eqb str_eqb_true), In_present. rewrite <- Er. now apply in_map.
  - intros c n Hin. apply (Permutation_in _ HP) in Hin.
    apply in_map_iff in Hin as [c' [E Hc']]. injection E as -> <-.
    split; [reflexivity|]. apply count_str_pos.
    apply (In_unique String.eqb str_eqb_true). exact Hc'.
  - rewrite (list_sum_perm _ _ (Permutation_map snd HP)), map_map. simpl.
    rewrite sum_counts.
    + unfold codes. rewrite length_present. apply length_filter_map.
    + apply (NoDup_unique String.eqb str_eqb_true).
    + intros x Hx. now apply (In_unique String.eqb str_eqb_true).
  - intros a b Ha Hb Hnb. simpl in Ha, Hnb.
    fold codes obc in Ha, Hnb.
    assert (HSS : StronglySorted (fun a b => (snd b <= snd a)%nat) obc).
    { apply Sorted_StronglySorted; [intros x y z; lia|].
      eapply Sorted_weaken; [|exact HSb]. intros x y H. now apply Nat.leb_le. }
    rewrite <- (firstn_skipn 3 obc) in HSS, Hb.
    apply in_app_iff in Hb as [Hb|Hb]; [contradiction|].
    exact (StronglySorted_app_between _ _ _ _ _ HSS Ha Hb).
Qed.

(** Co-occurrence Counter (lines 169-171): each product pair is counted
    under one key, written in sorted order (first <= second), with a count
    of at least one, both products of one same order; and the counts add up
    to the number of unordered pairs of rows within each order, i.e.
    twice the total is the sum of n*(n-1) over the orders' sizes n. *)
Theorem cooccurrence_counter_invariants : forall v,
  let c := cooccurrences v in
  NoDup (map fst c) /\
  (forall a b n, In ((a, b), n) c ->
     str_leb a b = true /\ (1 <= n)%nat /\
     exists g, In g (order_groups v) /\ In a g /\ In b g) /\
  (2 * counter_total c
   = list_sum (map (fun g => length g * (length g - 1)) (order_groups v)))%nat.
Proof.
  intros v c.
  set (P := fun k : pair => str_leb (fst k) (snd k) = true /\
              exists g, In g (order_groups v) /\ In (fst k) g /\ In (snd k) g).
  assert (Hfold : forall gs acc, incl gs (order_groups v) ->
    NoDup (map fst acc) -> (forall k' n, In (k', n) acc -> P k' /\ (1 <= n)%nat) ->
    let r := fold_left (fun c g => counter_update c (combinations2 (isort str_leb g))) gs acc in
    NoDup (map fst r) /\ (forall k' n, In (k', n) r -> P k' /\ (1 <= n)%nat) /\
    (2 * counter_total r = 2 * counter_total acc
       + list_sum (map (fun g => length g * (length g - 1)) gs))%nat).
  { induction gs as [|g r IH]; intros acc Hincl Hnd Hall; simpl; [split; [|split]; auto; lia|].
    assert (Hg : In g (order_groups v)) by (apply Hincl; now left).
    destruct (counter_update_inv P (combinations2 (isort str_leb g)) acc) as [H1 H2];
      [| exact Hnd | exact Hall |].
    - intros [x y] Hk.
      assert (HSS : StronglySorted (fun a b => str_leb a b = true) (isort str_leb g)).
      { apply Sorted_StronglySorted; [intros a b d; apply str_leb_trans|].
        apply isort_sorted. exact str_leb_total. }
      destruct (combinations2_In _ _ _ _ Hk HSS) as [Hx [Hy Hxy]].
      split; [exact Hxy|]. exists g. split; [exact Hg|].
      split; eapply Permutation_in; try apply isort_perm; eassumption.
    - destruct (IH _ (fun x H => Hincl x (or_intror H)) H1 H2) as [R1 [R2 R3]].
      split; [exact R1|]. split; [exact R2|]. rewrite counter_update_total in R3.
      assert (HL : (2 * @length pair (combinations2 (isort str_leb g))
                    = length g * (length g - 1))%nat).
      { rewrite <- (isort_length str_leb g). apply combinations2_length. }
      lia. }
  destruct (Hfold (order_groups v) [] (incl_refl _)) as [H1 [H2 H3]];
    [constructor | intros ? ? [] |].
  fold c in H1, H2, H3. split; [exact H1|]. split.
  - intros a b n Hin. destruct (H2 _ _ Hin) as [[Hab Hex] Hn]. simpl in Hab, Hex. auto.
  - unfold c, cooccurrences. rewrite H3. reflexivity.
Qed.
